(** * MemeSmash: the Elo rating engine and the vote handler of server.js

    JavaScript numbers are IEEE-754 binary64 values, modelled by Rocq's
    primitive floats.  Two host builtins are left as parameters of the
    [Server] section:
    - [pow_approx]: the implementation-approximated branch of
      [Number::exponentiate] (used by [Math.pow]); the exactly specified
      branches that the development needs are written out in [Math_pow];
    - [Number_toString]: the text stored in the NUMERIC column for a JS
      number sent as a query parameter.
    The PostgreSQL store is modelled as a table of rows, a per-session
    transaction, and a fault schedule saying which queries fail. *)

From Stdlib Require Import ZArith List String Ascii Bool Lia Permutation.
From Stdlib Require Import Floats.
From Stdlib Require Import DecimalString.
Import ListNotations.

(* ------------------------------------------------------------------ *)
(** ** JavaScript numbers *)

Module JsNumber.

Open Scope float_scope.

(** [Number::exponentiate(base, exponent)] (ECMAScript 6.1.6.1.3): its
    first three steps are exact; the rest is delegated to [approx]. *)
Definition exponentiate (approx : float -> float -> float) (base exponent : float)
  : float :=
  if is_nan exponent then nan
  else if is_zero exponent then 1
  else if is_nan base then nan
  else approx base exponent.

(** [parseFloat(string)] (ECMAScript 19.2.4) on ASCII strings: leading
    white space is skipped, the longest prefix that is a
    StrDecimalLiteral is read and rounded to nearest (ties to even);
    without such a prefix the result is NaN. *)

Definition is_white_space (c : ascii) : bool :=
  match nat_of_ascii c with
  | 9 | 10 | 11 | 12 | 13 | 32 => true
  | _ => false
  end.

Fixpoint trim_start (s : string) : string :=
  match s with
  | String c s' => if is_white_space c then trim_start s' else s
  | EmptyString => EmptyString
  end.

Definition digit_value (c : ascii) : option Z :=
  let n := nat_of_ascii c in
  if (48 <=? n)%nat && (n <=? 57)%nat then Some (Z.of_nat (n - 48)) else None.

(** Longest run of decimal digits, accumulated onto [acc]; returns the
    new accumulator, the number of digits read and the rest. *)
Fixpoint scan_digits (s : string) (acc : Z) (count : nat) : Z * nat * string :=
  match s with
  | String c s' =>
      match digit_value c with
      | Some d => scan_digits s' (acc * 10 + d)%Z (S count)
      | None => (acc, count, s)
      end
  | EmptyString => (acc, count, s)
  end.

(** [+] or [-] in front; [true] for [-]. *)
Definition scan_sign (s : string) : bool * string :=
  match s with
  | String c s' =>
      if Ascii.eqb c "-"%char then (true, s')
      else if Ascii.eqb c "+"%char then (false, s')
      else (false, s)
  | EmptyString => (false, s)
  end.

(** ExponentPart, when present: [e] or [E], a sign, at least one digit. *)
Definition scan_exponent (s : string) : Z :=
  match s with
  | String c s' =>
      if Ascii.eqb c "e"%char || Ascii.eqb c "E"%char then
        let '(neg, r) := scan_sign s' in
        let '(v, n, _) := scan_digits r 0 0 in
        if (n =? 0)%nat then 0%Z else if neg then Z.opp v else v
      else 0%Z
  | EmptyString => 0%Z
  end.

Inductive decimal_literal :=
| DInfinity
| DFinite (mantissa : Z) (exponent10 : Z).

(** StrUnsignedDecimalLiteral: [Infinity], or digits with an optional
    fraction (at least one digit overall) and an optional exponent. *)
Definition scan_unsigned (s : string) : option decimal_literal :=
  if String.prefix "Infinity" s then Some DInfinity else
  let '(m1, n1, r1) := scan_digits s 0 0 in
  let '(m2, n2, r2) :=
    match r1 with
    | String c r => if Ascii.eqb c "."%char then scan_digits r m1 0 else (m1, 0%nat, r1)
    | EmptyString => (m1, 0%nat, r1)
    end in
  if (n1 + n2 =? 0)%nat then None
  else Some (DFinite m2 (scan_exponent r2 - Z.of_nat n2)%Z).

(** The binary64 value nearest to [(-1)^neg * m * 10^e] (RoundMVResult). *)
Definition decimal_to_float (neg : bool) (m e : Z) : float :=
  if (m =? 0)%Z then (if neg then neg_zero else zero)
  else if (0 <=? e)%Z then
    SF2Prim (SpecFloat.binary_normalize prec emax
               (if neg then Z.opp (m * 10 ^ e) else m * 10 ^ e)%Z 0%Z false)
  else
    let '(q, e', loc) := SpecFloat.SFdiv_core_binary prec emax m 0 (10 ^ (- e)) 0 in
    SF2Prim (SpecFloat.binary_round_aux prec emax neg q e' loc).

Definition parseFloat (s : string) : float :=
  let '(neg, r) := scan_sign (trim_start s) in
  match scan_unsigned r with
  | None => nan
  | Some DInfinity => if neg then neg_infinity else infinity
  | Some (DFinite m e) => decimal_to_float neg m e
  end.

End JsNumber.

(* ------------------------------------------------------------------ *)
(** ** The [images] table and the queries the handlers issue *)

(** A row of [images].  [pg] returns NUMERIC columns as text, so the
    rating is kept as the text the driver hands to the handler. *)
Record image := mkImage {
  img_id : Z;
  img_name : string;
  img_image_url : string;
  img_rating : string;
  img_matches_played : Z }.

Inductive query :=
| SelectRandom2                        (* SELECT * FROM images ORDER BY RANDOM() LIMIT 2 *)
| SelectById (id : Z)                  (* SELECT id, name, rating FROM images WHERE id = $1 *)
| Connect                              (* pool.connect() *)
| Begin                                (* BEGIN *)
| UpdateRating (rating : float) (id : Z)
    (* UPDATE images SET rating = $1, matches_played = matches_played + 1
       WHERE id = $2 RETURNING rating, matches_played *)
| Commit                               (* COMMIT *)
| Rollback.                            (* ROLLBACK *)

(** What an awaited query yields: its rows, or a thrown error. *)
Inductive reply :=
| Rows (rows : list image)
| Failed.

(** An async handler: finished with a value, or suspended on a query. *)
Inductive prog (A : Type) : Type :=
| Ret (a : A)
| Await (q : query) (k : reply -> prog A).
Arguments Ret {A} a.
Arguments Await {A} q k.

(** The fields of [req.body] as JSON numbers; [None] when absent. *)
Definition request_id := option Z.

(** [!v] in JavaScript for such a field: absent or [0]. *)
Definition falsy (v : request_id) : bool :=
  match v with
  | None => true
  | Some z => (z =? 0)%Z
  end.

(** Responses of [POST /api/vote]. *)
Inductive vote_response :=
| VoteOk (winnerRating loserRating : float)  (* 200 { success: true, winnerRating, loserRating } *)
| VoteBadRequest                             (* 400 'winnerId and loserId are required' *)
| VoteNotFound                               (* 404 'Image not found' *)
| VoteFailed.                                (* 500 'Vote failed' *)

(** Responses of [GET /api/matchup]. *)
Inductive matchup_response :=
| MatchupRows (rows : list image)            (* 200 r.rows *)
| MatchupNotEnough                           (* 404 'Not enough images.' *)
| MatchupError.                              (* 500 'Server error' *)

Section Server.

Variable pow_approx : float -> float -> float.
Variable Number_toString : float -> string.

Local Open Scope float_scope.

(** [Math.pow] on number arguments. *)
Definition Math_pow (base exponent : float) : float :=
  JsNumber.exponentiate pow_approx base exponent.

(** [const K_FACTOR = 32;] *)
Definition K_FACTOR : float := 32.

(** [function calculateExpectedScore(ratingA, ratingB)
       { return 1 / (1 + Math.pow(10, (ratingB - ratingA) / 400)); }] *)
Definition calculateExpectedScore (ratingA ratingB : float) : float :=
  1 / (1 + Math_pow 10 ((ratingB - ratingA) / 400)).

(** Lines 99-108 of the vote handler: the two expected scores and the two
    new ratings. *)
Definition expected_scores (winnerRating loserRating : float) : float * float :=
  (calculateExpectedScore winnerRating loserRating,
   calculateExpectedScore loserRating winnerRating).

Definition new_ratings (winnerRating loserRating : float) : float * float :=
  let expectedWinner := calculateExpectedScore winnerRating loserRating in
  let expectedLoser := calculateExpectedScore loserRating winnerRating in
  let newWinnerRating := winnerRating + K_FACTOR * (1 - expectedWinner) in
  let newLoserRating := loserRating + K_FACTOR * (0 - expectedLoser) in
  (newWinnerRating, newLoserRating).


(* ------------------------------------------------------------------ *)
(** ** The handlers *)

(** [GET /api/matchup] *)
Definition matchup : prog matchup_response :=
  Await SelectRandom2 (fun r =>
    match r with
    | Failed => Ret MatchupError
    | Rows rows =>
        if (List.length rows <? 2)%nat then Ret MatchupNotEnough
        else Ret (MatchupRows rows)
    end).

(** The inner [catch (e) { await c.query('ROLLBACK'); throw e; }]: the
    rethrown error (or the one of ROLLBACK) reaches the outer catch, which
    answers 500.  [c.release()] in [finally] issues no query. *)
Definition rollback_and_rethrow : prog vote_response :=
  Await Rollback (fun _ => Ret VoteFailed).

(** Lines 115-140: the transaction that writes both rows. *)
Definition vote_transaction (winnerId loserId : Z) (newWinnerRating newLoserRating : float)
  : prog vote_response :=
  Await Connect (fun r =>
  match r with Failed => Ret VoteFailed | Rows _ =>
  Await Begin (fun r =>
  match r with Failed => rollback_and_rethrow | Rows _ =>
  Await (UpdateRating newWinnerRating winnerId) (fun r =>
  match r with Failed => rollback_and_rethrow | Rows _ =>
  Await (UpdateRating newLoserRating loserId) (fun r =>
  match r with Failed => rollback_and_rethrow | Rows _ =>
  Await Commit (fun r =>
  match r with Failed => rollback_and_rethrow | Rows _ =>
  Ret (VoteOk newWinnerRating newLoserRating)
  end) end) end) end) end).

(** [POST /api/vote] *)
Definition vote (winnerId loserId : request_id) : prog vote_response :=
  if falsy winnerId || falsy loserId then Ret VoteBadRequest else
  match winnerId, loserId with
  | Some wid, Some lid =>
      Await (SelectById wid) (fun wr =>
      match wr with Failed => Ret VoteFailed | Rows wrows =>
      Await (SelectById lid) (fun lr =>
      match lr with Failed => Ret VoteFailed | Rows lrows =>
      match wrows, lrows with
      | w :: _, l :: _ =>
          let winnerRating := JsNumber.parseFloat (img_rating w) in
          let loserRating := JsNumber.parseFloat (img_rating l) in
          let '(newWinnerRating, newLoserRating) := new_ratings winnerRating loserRating in
          vote_transaction wid lid newWinnerRating newLoserRating
      | _, _ => Ret VoteNotFound
      end end) end)
  | _, _ => Ret VoteBadRequest
  end.

(* ------------------------------------------------------------------ *)
(** ** PostgreSQL, one session *)

(** The effect of one [UPDATE ... WHERE id = $2] on the rows. *)
Definition apply_update (u : float * Z) (rows : list image) : list image :=
  let '(rating, id) := u in
  map (fun i =>
         if (img_id i =? id)%Z then
           mkImage (img_id i) (img_name i) (img_image_url i)
                   (Number_toString rating) (img_matches_played i + 1)
         else i) rows.

Definition apply_updates (us : list (float * Z)) (rows : list image) : list image :=
  fold_left (fun rows u => apply_update u rows) us rows.

(** An open transaction: the updates it made, or aborted by an error. *)
Inductive transaction :=
| TxOpen (updates : list (float * Z))
| TxAborted.

Record world := mkWorld {
  table : list image;                        (* committed rows *)
  pending : option transaction;              (* the session's transaction *)
  random_order : list image -> list image;   (* ORDER BY RANDOM() *)
  faults : list nat;                         (* indices of the queries that fail *)
  trace : list query }.                      (* queries issued so far *)

Definition set_table (t : list image) (w : world) : world :=
  mkWorld t (pending w) (random_order w) (faults w) (trace w).
Definition set_pending (p : option transaction) (w : world) : world :=
  mkWorld (table w) p (random_order w) (faults w) (trace w).
Definition log_query (q : query) (w : world) : world :=
  mkWorld (table w) (pending w) (random_order w) (faults w) (trace w ++ [q]).

Definition faulty (w : world) : bool :=
  existsb (Nat.eqb (List.length (trace w))) (faults w).

(** One query.  A failing statement aborts the open transaction; a
    failing ROLLBACK still ends it (the server rolls back when the session
    breaks); COMMIT of an aborted transaction rolls it back. *)
Definition exec (q : query) (w : world) : reply * world :=
  let w1 := log_query q w in
  if faulty w then
    (Failed,
     match q, pending w with
     | Rollback, _ => set_pending None w1
     | _, Some _ => set_pending (Some TxAborted) w1
     | _, None => w1
     end)
  else
    match q with
    | SelectRandom2 => (Rows (firstn 2 (random_order w (table w))), w1)
    | SelectById id => (Rows (filter (fun i => (img_id i =? id)%Z) (table w)), w1)
    | Connect => (Rows [], w1)
    | Begin => (Rows [], set_pending (Some (TxOpen [])) w1)
    | UpdateRating rating id =>
        match pending w with
        | Some (TxOpen us) =>
            (Rows (filter (fun i => (img_id i =? id)%Z) (apply_updates (us ++ [(rating, id)]) (table w))),
             set_pending (Some (TxOpen (us ++ [(rating, id)]))) w1)
        | Some TxAborted => (Failed, w1)
        | None =>
            (Rows (filter (fun i => (img_id i =? id)%Z) (apply_update (rating, id) (table w))),
             set_table (apply_update (rating, id) (table w)) w1)
        end
    | Commit =>
        match pending w with
        | Some (TxOpen us) => (Rows [], set_pending None (set_table (apply_updates us (table w)) w1))
        | _ => (Rows [], set_pending None w1)
        end
    | Rollback => (Rows [], set_pending None w1)
    end.

Fixpoint run {A : Type} (p : prog A) (w : world) : A * world :=
  match p with
  | Ret a => (a, w)
  | Await q k => let '(r, w') := exec q w in run (k r) w'
  end.

(** Some query issued between [w] and [w'] failed. *)
Definition query_failed_between (w w' : world) : Prop :=
  exists n, (List.length (trace w) <= n < List.length (trace w'))%nat /\ In n (faults w).

(** [images.id] is the table's key, handed out by a sequence from 1. *)
Definition wf_table (t : list image) : Prop :=
  NoDup (map img_id t) /\ Forall (fun i => (0 < img_id i)%Z) t.

(** How many of the two request ids name the row [id]. *)
Definition participations (winnerId loserId : request_id) (id : Z) : Z :=
  (match winnerId with Some z => if (z =? id)%Z then 1 else 0 | None => 0 end
   + match loserId with Some z => if (z =? id)%Z then 1 else 0 | None => 0 end)%Z.

Definition is_vote_ok (r : vote_response) : bool :=
  match r with VoteOk _ _ => true | _ => false end.

(* ------------------------------------------------------------------ *)
(** ** PostgreSQL, two sessions running concurrently

    Two handlers run at once, each on its own connections.  SELECTs read
    the committed table (READ COMMITTED); an UPDATE takes the row lock and
    waits while the other session's open transaction holds it; COMMIT
    applies the session's updates to the table as it is then.  No query
    fails in this model. *)

Definition holds_lock (p : option transaction) (id : Z) : bool :=
  match p with
  | Some (TxOpen us) => existsb (fun u => (snd u =? id)%Z) us
  | _ => false
  end.

(** One query of a session whose transaction is [p], while the other
    session's is [other]; [None] when the query must wait for a lock. *)
Definition exec_shared (order : list image -> list image) (q : query) (t : list image)
    (p other : option transaction) : option (reply * list image * option transaction) :=
  match q with
  | SelectRandom2 => Some (Rows (firstn 2 (order t)), t, p)
  | SelectById id => Some (Rows (filter (fun i => (img_id i =? id)%Z) t), t, p)
  | Connect => Some (Rows [], t, p)
  | Begin => Some (Rows [], t, Some (TxOpen []))
  | UpdateRating rating id =>
      if holds_lock other id then None else
      match p with
      | Some (TxOpen us) => Some (Rows [], t, Some (TxOpen (us ++ [(rating, id)])))
      | Some TxAborted => Some (Failed, t, p)
      | None => Some (Rows [], apply_update (rating, id) t, None)
      end
  | Commit =>
      match p with
      | Some (TxOpen us) => Some (Rows [], apply_updates us t, None)
      | _ => Some (Rows [], t, None)
      end
  | Rollback => Some (Rows [], t, None)
  end.

Record cworld := mkCWorld {
  c_table : list image;
  c_order : list image -> list image;
  c_pending_a : option transaction;
  c_pending_b : option transaction;
  c_events : list (bool * query * reply) }.   (* [false] for A, [true] for B *)

(** Run the two handlers by the schedule ([false]: a step of A, [true]: a
    step of B); [None] when the schedule picks a finished or waiting one. *)
Fixpoint interleave {A : Type} (sched : list bool) (pa pb : prog A) (cw : cworld)
  : option (prog A * prog A * cworld) :=
  match sched with
  | [] => Some (pa, pb, cw)
  | false :: sched' =>
      match pa with
      | Ret _ => None
      | Await q k =>
          match exec_shared (c_order cw) q (c_table cw) (c_pending_a cw) (c_pending_b cw) with
          | None => None
          | Some (r, t, p) =>
              interleave sched' (k r) pb
                (mkCWorld t (c_order cw) p (c_pending_b cw) (c_events cw ++ [(false, q, r)]))
          end
      end
  | true :: sched' =>
      match pb with
      | Ret _ => None
      | Await q k =>
          match exec_shared (c_order cw) q (c_table cw) (c_pending_b cw) (c_pending_a cw) with
          | None => None
          | Some (r, t, p) =>
              interleave sched' pa (k r)
                (mkCWorld t (c_order cw) (c_pending_a cw) p (c_events cw ++ [(true, q, r)]))
          end
      end
  end.

Fixpoint event_index (who : bool) (q : query) (evs : list (bool * query * reply)) : option nat :=
  match evs with
  | [] => None
  | (who', q', _) :: evs' =>
      if Bool.eqb who who' && (match q, q' with
                                | SelectById a, SelectById b => (a =? b)%Z
                                | Commit, Commit => true
                                | _, _ => false end)
      then Some 0%nat
      else option_map S (event_index who q evs')
  end.

(** Item-level mutual exclusion on [id], as the spec asks: whichever of
    the two votes reads [id] second does so after the other has
    committed. *)
Definition serialized_on (id : Z) (evs : list (bool * query * reply)) : bool :=
  match event_index false (SelectById id) evs, event_index true (SelectById id) evs,
        event_index false Commit evs, event_index true Commit evs with
  | Some ra, Some rb, Some ca, Some cb => (ca <? rb)%nat || (cb <? ra)%nat
  | _, _, _, _ => true
  end.

End Server.

(** A small table used by the concrete runs below. *)
Definition sample_images : list image :=
  [mkImage 1 "drake" "https://ik.imagekit.io/elo-ranker-memes/meme-1" "1200" 0;
   mkImage 2 "doge" "https://ik.imagekit.io/elo-ranker-memes/meme-2" "1200" 0;
   mkImage 3 "stonks" "https://ik.imagekit.io/elo-ranker-memes/meme-3" "1200" 0].

Definition sample_world : world := mkWorld sample_images None (fun t => t) [] [].

Definition sample_cworld : cworld := mkCWorld sample_images (fun t => t) None None [].

(** A reads both rows, B reads both rows, A's transaction, B's transaction. *)
Definition racy_schedule : list bool :=
  [false; false; true; true; false; false; false; false; false;
   true; true; true; true; true].

(** A table whose row 1 holds the NUMERIC value ['NaN'] (PostgreSQL's
    [numeric] type accepts it); pg returns it as the text ["NaN"]. *)
Definition nan_images : list image :=
  [mkImage 1 "drake" "https://ik.imagekit.io/elo-ranker-memes/meme-1" "NaN" 0;
   mkImage 2 "doge" "https://ik.imagekit.io/elo-ranker-memes/meme-2" "1200" 0].

Definition nan_world : world := mkWorld nan_images None (fun t => t) [] [].

(* ------------------------------------------------------------------ *)
(** ** [POST /api/upload]

    [multer] hands the handler the uploaded file ([req.file], absent when
    the form has no [image] field) and the text fields ([req.body.name],
    absent or a string).  Names are ASCII text here, as for [parseFloat]. *)

Module JsString.

(** [String.prototype.trim] on ASCII strings: the white space and line
    terminators it removes are the code units 9-13 and 32, the same set
    [parseFloat] skips. *)
Fixpoint trim_end (s : string) : string :=
  match s with
  | EmptyString => EmptyString
  | String c s' =>
      let t := trim_end s' in
      if JsNumber.is_white_space c && String.eqb t EmptyString then EmptyString
      else String c t
  end.

Definition trim (s : string) : string := trim_end (JsNumber.trim_start s).

(** A JavaScript integer number converted to text, as in a template
    literal. *)
Definition integer_to_string (n : Z) : string :=
  NilZero.string_of_int (Z.to_int n).

End JsString.

(** What the handler talks to: ImageKit (its answer to the next upload:
    the URL of the stored file, or [None] when [imagekit.upload] throws),
    the [images] table with the sequence behind its [id] column, and
    whether the INSERT throws (a failure before the row is written, e.g.
    a broken connection: the sequence is not advanced). *)
Record ustore := mkUStore {
  u_files : list (string * string * list Byte.byte * string);  (* folder, fileName, file, url *)
  u_upload_result : option string;
  u_table : list image;
  u_next_id : Z;
  u_insert_fails : bool }.

(** Responses of [POST /api/upload]. *)
Inductive upload_response :=
| UploadNoFile                (* 400 'No image file uploaded.' *)
| UploadNoName                (* 400 'Meme name is required.' *)
| UploadCreated (url : string)  (* 201 { imageUrl: uploadResponse.url } *)
| UploadFailed.               (* 500 'Failed to upload the image.' *)

Section Upload.

Variable Number_toString : float -> string.

(** [if (!name || name.trim() === '')] *)
Definition name_missing (name : option string) : bool :=
  match name with
  | None => true
  | Some nm => String.eqb nm EmptyString || String.eqb (JsString.trim nm) EmptyString
  end.

(** Lines 155-184, with [Date.now()] given as [now]. *)
Definition upload (file : option (list Byte.byte)) (name : option string) (now : Z) (s : ustore)
  : upload_response * ustore :=
  match file with
  | None => (UploadNoFile, s)
  | Some buffer =>
      if name_missing name then (UploadNoName, s) else
      let nm := match name with Some nm => nm | None => EmptyString end in
      let fileName := ("meme-" ++ JsString.integer_to_string now)%string in
      match u_upload_result s with
      | None => (UploadFailed, s)
      | Some url =>
          let files := u_files s ++ [("elo-ranker-memes"%string, fileName, buffer, url)] in
          if u_insert_fails s then
            (UploadFailed, mkUStore files (u_upload_result s) (u_table s) (u_next_id s) (u_insert_fails s))
          else
            (UploadCreated url,
             mkUStore files (u_upload_result s)
               (u_table s ++ [mkImage (u_next_id s) nm url (Number_toString 1200%float) 0])
               (u_next_id s + 1) (u_insert_fails s))
      end
  end.

End Upload.

(** ImageKit and the table for the concrete runs below. *)
Definition sample_ustore : ustore :=
  mkUStore [] (Some "https://ik.imagekit.io/elo-ranker-memes/meme-1700000000000"%string)
           sample_images 4 false.

(* ================================================================== *)
(** * Theorems *)

Local Open Scope float_scope.

(** Claim C6: with both ratings 1200 (and K_FACTOR 32) the expected scores
    are both 0.5 and the new ratings are exactly 1216 and 1184, whatever
    the host's approximation of [Math.pow] (the exponent is 0). *)
Theorem scenario_1200_1200 (pow_approx : float -> float -> float) :
  expected_scores pow_approx 1200 1200 = (0.5, 0.5)
  /\ new_ratings pow_approx 1200 1200 = (1216, 1184).
Proof. split; reflexivity. Qed.


(** Binary64 evaluation behind the counterexample above. *)
Lemma new_ratings_2_57 (pow_approx : float -> float -> float) :
  new_ratings pow_approx 144115188075855872 144115188075855872
  = (144115188075855872, 144115188075855856).
Proof. reflexivity. Qed.


(* ------------------------------------------------------------------ *)
(** ** The vote handler against one session *)

Lemma existsb_eqb_false (k : nat) (l : list nat) :
  existsb (Nat.eqb k) l = false -> ~ In k l.
Proof.
  intros H Hin. assert (existsb (Nat.eqb k) l = true).
  { apply existsb_exists. exists k. split; [exact Hin | apply Nat.eqb_refl]. }
  congruence.
Qed.

Lemma existsb_eqb_true (k : nat) (l : list nat) :
  existsb (Nat.eqb k) l = true -> In k l.
Proof.
  intros H. apply existsb_exists in H as [x [Hx Hk]].
  apply Nat.eqb_eq in Hk. subst. exact Hx.
Qed.

Ltac split_faults :=
  repeat match goal with
  | |- context [existsb (Nat.eqb ?n) ?fs] =>
      let E := fresh "E" in destruct (existsb (Nat.eqb n) fs) eqn:E
  end.

(** Execute the awaited queries one by one, splitting on whether each fails. *)
Ltac run_steps :=
  repeat (cbn [run]; unfold exec at 1, faulty at 1;
          unfold log_query, set_pending, set_table; cbn [trace faults pending table];
          rewrite ?length_app; cbn [List.length Nat.add existsb]; split_faults; cbn [run]);
  unfold log_query, set_pending, set_table; cbn [trace faults pending table random_order].

Ltac close_faulted :=
  match goal with
  | E : existsb (Nat.eqb ?k) _ = true |- query_failed_between _ _ =>
      exists k; split;
      [ cbn [trace]; rewrite ?length_app; cbn [List.length]; lia
      | apply existsb_eqb_true; exact E ]
  end.

Ltac close_no_fault :=
  let n := fresh "n" in let Hn := fresh "Hn" in let Hin := fresh "Hin" in
  intros [n [Hn Hin]]; cbn [trace faults] in Hn, Hin;
  rewrite ?length_app in Hn; cbn [List.length] in Hn;
  repeat match goal with
  | E : existsb (Nat.eqb ?k) _ = false |- _ =>
      apply existsb_eqb_false in E;
      assert (n <> k) by (intros ->; contradiction); clear E
  end; lia.

Lemma exec_trace ts q w : trace (snd (exec ts q w)) = trace w ++ [q].
Proof.
  unfold exec. destruct (faulty w); destruct q; destruct (pending w) as [[|]|]; reflexivity.
Qed.

Lemma run_trace_extends ts {A : Type} (p : prog A) w :
  exists l, trace (snd (run ts p w)) = trace w ++ l.
Proof.
  revert w. induction p as [a|q k IH]; intros w.
  - exists []. rewrite app_nil_r. reflexivity.
  - cbn [run]. pose proof (exec_trace ts q w) as Hq.
    destruct (exec ts q w) as [r w1]. cbn [snd] in Hq.
    destruct (IH r w1) as [l Hl]. exists (q :: l).
    rewrite Hl, Hq, <- app_assoc. reflexivity.
Qed.

(** The transaction of lines 115-140, from a session with no open
    transaction: it commits both updates and answers with the new ratings
    when none of its queries fails; otherwise it answers 500 and the
    committed table is unchanged. *)
Lemma vote_transaction_outcome ts wid lid nw nl w :
  pending w = None ->
  let '(r, w') := run ts (vote_transaction wid lid nw nl) w in
  pending w' = None /\
  ((r = VoteOk nw nl /\ table w' = apply_updates ts [(nw, wid); (nl, lid)] (table w)
     /\ ~ query_failed_between w w')
   \/ (r = VoteFailed /\ table w' = table w /\ query_failed_between w w')).
Proof.
  destruct w as [t p ro fs tr]; simpl; intros ->.
  unfold vote_transaction, rollback_and_rethrow.
  run_steps.
  all: split; [reflexivity|].
  all: first [ right; split; [reflexivity|]; split; [reflexivity|]; close_faulted
             | left; split; [reflexivity|]; split; [reflexivity|]; close_no_fault ].
Qed.

(** All outcomes of [POST /api/vote] from a session with no open
    transaction. *)
Lemma vote_outcome pa ts wi li w :
  pending w = None ->
  let '(r, w') := run ts (vote pa wi li) w in
  pending w' = None /\
  (((falsy wi || falsy li) = true /\ r = VoteBadRequest /\ w' = w)
   \/ ((falsy wi || falsy li) = false /\ r <> VoteBadRequest /\
       ((table w' = table w /\ is_vote_ok r = false)
        \/ exists wid lid nw nl, wi = Some wid /\ li = Some lid /\ r = VoteOk nw nl /\
             table w' = apply_updates ts [(nw, wid); (nl, lid)] (table w)))).
Proof.
  intros Hp. destruct (falsy wi || falsy li) eqn:F.
  - unfold vote. rewrite F. cbn [run]. split; [exact Hp|]. left. auto.
  - destruct wi as [wid|]; [|discriminate F].
    destruct li as [lid|]; [|rewrite orb_true_r in F; discriminate F].
    destruct w as [t p ro fs tr]; cbn in Hp; subst p.
    unfold vote. rewrite F.
    run_steps.
    all: try (split; [reflexivity|]; right; split; [reflexivity|];
              split; [discriminate|]; left; split; reflexivity).
    all: destruct (filter _ t) as [|wrow wrows]; cbn [run].
    all: try (split; [reflexivity|]; right; split; [reflexivity|];
              split; [discriminate|]; left; split; reflexivity).
    all: destruct (filter _ t) as [|lrow lrows]; cbn [run].
    all: try (split; [reflexivity|]; right; split; [reflexivity|];
              split; [discriminate|]; left; split; reflexivity).
    all: destruct (new_ratings _ _ _) as [nw nl].
    all: match goal with
         | |- context [run ?ts' (vote_transaction ?a ?b ?c ?d) ?w2] =>
             pose proof (vote_transaction_outcome ts' a b c d w2 eq_refl) as Htx;
             destruct (run ts' (vote_transaction a b c d) w2) as [r w']
         end.
    all: destruct Htx as [Hp' [[-> [Ht _]] | [-> [Ht _]]]];
         (split; [exact Hp'|]; right; split; [reflexivity|]; split; [discriminate|]).
    all: first [ right; exists wid, lid, nw, nl; repeat split; exact Ht
               | left; split; [exact Ht | reflexivity] ].
Qed.

Local Open Scope float_scope.
Example parseFloat_examples :
  JsNumber.parseFloat "1200" = 1200 /\ JsNumber.parseFloat "1200.00" = 1200
  /\ JsNumber.parseFloat "  -3.5e2x" = -350 /\ JsNumber.parseFloat "0.1" = 0x1.999999999999ap-4 (* 0.1 *)
  /\ JsNumber.parseFloat "1e400" = infinity /\ JsNumber.parseFloat "-Infinity" = neg_infinity
  /\ JsNumber.parseFloat "5e-324" = 0x1p-1074 /\ JsNumber.parseFloat ".5" = 0.5
  /\ JsNumber.parseFloat "2.5e" = 2.5 /\ JsNumber.parseFloat "1.7976931348623157e308" = 0x1.fffffffffffffp1023
  /\ JsNumber.parseFloat "123456789012345678901234567890" = 0x1.8ee90ff6c373ep+96 (* 1.2345678901234568e29 *).
Proof. vm_compute. repeat split. Qed.
Example parseFloat_nan :
  is_nan (JsNumber.parseFloat "abc") = true /\ is_nan (JsNumber.parseFloat ".") = true
  /\ is_nan (JsNumber.parseFloat "NaN") = true /\ is_nan (JsNumber.parseFloat "+-1") = true.
Proof. vm_compute. repeat split. Qed.

(* ------------------------------------------------------------------ *)
(** ** Claims on the vote handler *)

Lemma apply_updates_two ts nw wid nl lid t :
  map img_id (apply_updates ts [(nw, wid); (nl, lid)] t) = map img_id t /\
  Forall2 (fun i i' => img_matches_played i' =
             (img_matches_played i + participations (Some wid) (Some lid) (img_id i))%Z)
          t (apply_updates ts [(nw, wid); (nl, lid)] t).
Proof.
  unfold apply_updates, participations. cbn [fold_left apply_update].
  induction t as [|i t [IH1 IH2]]; cbn [map]; [split; constructor|].
  split.
  - destruct (img_id i =? wid)%Z; cbn [img_id]; destruct (img_id i =? lid)%Z;
      cbn [map img_id]; f_equal; exact IH1.
  - constructor; [|exact IH2].
    rewrite (Z.eqb_sym wid (img_id i)), (Z.eqb_sym lid (img_id i)).
    destruct (img_id i =? wid)%Z eqn:Ew; cbn [img_id img_matches_played];
      destruct (img_id i =? lid)%Z eqn:El; cbn [img_id img_matches_played]; lia.
Qed.

Lemma filter_key_unique (t : list image) (row : image) :
  NoDup (map img_id t) -> In row t ->
  filter (fun i => (img_id i =? img_id row)%Z) t = [row].
Proof.
  induction t as [|i t IH]; intros Hnd Hin; [destruct Hin|].
  cbn [map] in Hnd. apply NoDup_cons_iff in Hnd as [Hni Hnd].
  cbn [filter]. destruct Hin as [->|Hin].
  - rewrite Z.eqb_refl. f_equal.
    revert Hni. clear. induction t as [|j t IHt]; intros Hni; [reflexivity|].
    cbn [filter map] in *. destruct (img_id j =? img_id row)%Z eqn:E.
    + apply Z.eqb_eq in E. exfalso. apply Hni. left. exact E.
    + apply IHt. intros H. apply Hni. right. exact H.
  - rewrite (IH Hnd Hin).
    destruct (img_id i =? img_id row)%Z eqn:E; [|reflexivity].
    apply Z.eqb_eq in E. exfalso. apply Hni. rewrite E. apply in_map, Hin.
Qed.

(** Claim C1 (counterexample): a vote whose two ids are equal is not
    rejected before storage is touched: [vote 1 1] on the sample table
    queries the store and succeeds. *)
Lemma same_ids_vote_accepted :
  ~ (forall (pa : float -> float -> float) (ts : float -> string) (w : world) (id : Z),
        let '(r, w') := run ts (vote pa (Some id) (Some id)) w in
        r = VoteBadRequest /\ trace w' = []).
Proof.
  intros H. specialize (H (fun _ _ => 0) (fun _ => EmptyString) sample_world 1%Z).
  vm_compute in H. destruct H as [H _]. discriminate H.
Qed.

(** Claim C1 (amended): a vote is rejected with 400 before any storage
    access exactly when [winnerId] or [loserId] is missing or [0].  Every
    other vote, two equal ids included, is not rejected: its first query
    is the SELECT of [winnerId], and the answer is never 400. *)
Theorem vote_validation pa ts wi li w :
  pending w = None ->
  let '(r, w') := run ts (vote pa wi li) w in
  ((falsy wi || falsy li) = true -> r = VoteBadRequest /\ w' = w) /\
  ((falsy wi || falsy li) = false ->
     r <> VoteBadRequest /\
     exists wid l, wi = Some wid /\ trace w' = trace w ++ SelectById wid :: l).
Proof.
  intros Hp.
  pose proof (vote_outcome pa ts wi li w Hp) as Ho.
  destruct (run ts (vote pa wi li) w) as [r w'] eqn:Hrun.
  split.
  - intros F. destruct Ho as [_ [[_ [Hr Hw]] | [F' _]]]; [auto | congruence].
  - intros F. destruct Ho as [_ [[F' _] | [_ [Hr _]]]]; [congruence|]. split; [exact Hr|].
    destruct wi as [wid|]; [|discriminate F].
    destruct li as [lid|]; [|rewrite orb_true_r in F; discriminate F]. exists wid.
    unfold vote in Hrun. rewrite F in Hrun. cbn [run] in Hrun.
    pose proof (exec_trace ts (SelectById wid) w) as Hq.
    destruct (exec ts (SelectById wid) w) as [r1 w1].
    match type of Hrun with
    | run ts ?k w1 = _ => pose proof (run_trace_extends ts k w1) as [l Hl]
    end.
    rewrite Hrun in Hl. cbn [snd] in Hl, Hq. exists l. split; [reflexivity|].
    rewrite Hl, Hq, <- app_assoc. reflexivity.
Qed.

Lemma vote_validation_witness :
  pending sample_world = None /\
  (let '(r, w') := run (fun _ => EmptyString) (vote (fun _ _ => 0) (Some 1%Z) (Some 1%Z)) sample_world in
   ((falsy (Some 1%Z) || falsy (Some 1%Z)) = true -> r = VoteBadRequest /\ w' = sample_world) /\
   ((falsy (Some 1%Z) || falsy (Some 1%Z)) = false ->
      r <> VoteBadRequest /\
      exists wid l, Some 1%Z = Some wid /\ trace w' = trace sample_world ++ SelectById wid :: l)).
Proof.
  split; [reflexivity|].
  apply (vote_validation (fun _ _ => 0) (fun _ => EmptyString) (Some 1%Z) (Some 1%Z) sample_world).
  reflexivity.
Defined.

(** Claim C2 (counterexample): a resolved vote does not always add exactly
    1 to each participant's [matches_played]: [vote 1 1] adds 2 to row 1. *)
Lemma self_vote_adds_two_matches :
  ~ (forall (pa : float -> float -> float) (ts : float -> string) (w : world) (wid lid : Z),
        pending w = None ->
        let '(r, w') := run ts (vote pa (Some wid) (Some lid)) w in
        is_vote_ok r = true ->
        Forall2 (fun i i' => (img_id i = wid \/ img_id i = lid) ->
                             img_matches_played i' = (img_matches_played i + 1)%Z)
                (table w) (table w')).
Proof.
  intros H.
  specialize (H (fun _ _ => 0) (fun _ => EmptyString) sample_world 1%Z 1%Z eq_refl).
  vm_compute in H. specialize (H eq_refl).
  inversion H as [|i i' l l' Hi _]. subst.
  specialize (Hi (or_introl eq_refl)). discriminate Hi.
Qed.

(** Claim C2 (amended): after any run of [POST /api/vote] each row keeps
    its id and its [matches_played] grows by the number of times the vote
    names it when the vote succeeds (1 for each of two distinct ids, 2 when
    both ids are the same), and by 0 otherwise; it never decreases. *)
Theorem vote_matches_played pa ts wi li w :
  pending w = None ->
  let '(r, w') := run ts (vote pa wi li) w in
  map img_id (table w') = map img_id (table w) /\
  Forall2 (fun i i' => img_matches_played i' =
             (img_matches_played i
              + if is_vote_ok r then participations wi li (img_id i) else 0)%Z)
          (table w) (table w').
Proof.
  intros Hp. pose proof (vote_outcome pa ts wi li w Hp) as Ho.
  destruct (run ts (vote pa wi li) w) as [r w'].
  assert (Hsame : table w' = table w -> is_vote_ok r = false ->
                  map img_id (table w') = map img_id (table w) /\
                  Forall2 (fun i i' => img_matches_played i' =
                    (img_matches_played i
                     + if is_vote_ok r then participations wi li (img_id i) else 0)%Z)
                    (table w) (table w')).
  { intros -> ->. split; [reflexivity|]. clear Ho.
    induction (table w) as [|x t IH]; constructor; [lia | exact IH]. }
  destruct Ho as [_ [[_ [-> ->]] | [_ [_ [[Ht Hr] | [wid [lid [nw [nl [-> [-> [-> Ht]]]]]]]]]]]].
  - apply Hsame; reflexivity.
  - apply Hsame; assumption.
  - rewrite Ht. cbn [is_vote_ok]. apply apply_updates_two.
Qed.

Lemma vote_matches_played_witness :
  pending sample_world = None /\
  (let '(r, w') := run (fun _ => EmptyString) (vote (fun _ _ => 0) (Some 1%Z) (Some 2%Z)) sample_world in
   map img_id (table w') = map img_id (table sample_world) /\
   Forall2 (fun i i' => img_matches_played i' =
              (img_matches_played i
               + if is_vote_ok r then participations (Some 1%Z) (Some 2%Z) (img_id i) else 0)%Z)
           (table sample_world) (table w')).
Proof.
  split; [reflexivity|].
  apply (vote_matches_played (fun _ _ => 0) (fun _ => EmptyString) (Some 1%Z) (Some 2%Z) sample_world).
  reflexivity.
Defined.

(** Claim C7: the two row updates of a vote are committed together or not
    at all: after any run of [POST /api/vote] the committed table is either
    unchanged or carries both updates, and only a successful answer comes
    with the updates.  For the persistence step itself (lines 115-140, from
    a session without an open transaction): if any of its queries fails the
    answer is 500 ('Vote failed') and the committed table is exactly as
    before; otherwise both updates are committed. *)
Theorem vote_persistence_atomic pa ts wi li w :
  pending w = None ->
  (let '(r, w') := run ts (vote pa wi li) w in
   (table w' = table w /\ is_vote_ok r = false)
   \/ exists wid lid nw nl, wi = Some wid /\ li = Some lid /\ r = VoteOk nw nl /\
        table w' = apply_updates ts [(nw, wid); (nl, lid)] (table w))
  /\ (forall wid lid nw nl,
        let '(r, w') := run ts (vote_transaction wid lid nw nl) w in
        (query_failed_between w w' -> r = VoteFailed /\ table w' = table w)
        /\ (~ query_failed_between w w' ->
            r = VoteOk nw nl /\ table w' = apply_updates ts [(nw, wid); (nl, lid)] (table w))).
Proof.
  intros Hp. split.
  - pose proof (vote_outcome pa ts wi li w Hp) as Ho.
    destruct (run ts (vote pa wi li) w) as [r w'].
    destruct Ho as [_ [[_ [-> ->]] | [_ [_ H]]]]; [left; split; reflexivity | exact H].
  - intros wid lid nw nl.
    pose proof (vote_transaction_outcome ts wid lid nw nl w Hp) as Ht.
    destruct (run ts (vote_transaction wid lid nw nl) w) as [r w'].
    destruct Ht as [_ [[Hr [Htab Hnf]] | [Hr [Htab Hf]]]]; split; intros Hx;
      solve [ auto | contradiction ].
Qed.

Lemma vote_persistence_atomic_witness :
  pending sample_world = None /\
  ((let '(r, w') := run (fun _ => EmptyString) (vote (fun _ _ => 0) (Some 1%Z) (Some 2%Z)) sample_world in
    (table w' = table sample_world /\ is_vote_ok r = false)
    \/ exists wid lid nw nl, Some 1%Z = Some wid /\ Some 2%Z = Some lid /\ r = VoteOk nw nl /\
         table w' = apply_updates (fun _ => EmptyString) [(nw, wid); (nl, lid)] (table sample_world))
   /\ (forall wid lid nw nl,
         let '(r, w') := run (fun _ => EmptyString) (vote_transaction wid lid nw nl) sample_world in
         (query_failed_between sample_world w' -> r = VoteFailed /\ table w' = table sample_world)
         /\ (~ query_failed_between sample_world w' ->
             r = VoteOk nw nl /\
             table w' = apply_updates (fun _ => EmptyString) [(nw, wid); (nl, lid)] (table sample_world)))).
Proof.
  split; [reflexivity|].
  apply (vote_persistence_atomic (fun _ _ => 0) (fun _ => EmptyString) (Some 1%Z) (Some 2%Z) sample_world).
  reflexivity.
Defined.

(** Claim C10: a vote naming the same existing image twice succeeds when no
    query fails; the image's [matches_played] grows by 2 and its stored
    rating is the loser-branch value [r + 32 * (0 - expected)] computed from
    its pre-vote rating [r] (the winner-branch UPDATE is overwritten by the
    loser-branch UPDATE of the same row).  Image ids come from the table's
    sequence, so they are positive and pass the [!winnerId] check. *)
Theorem self_vote_counts_twice pa ts w row :
  pending w = None -> faults w = [] -> wf_table (table w) -> In row (table w) ->
  let r0 := JsNumber.parseFloat (img_rating row) in
  let '(r, w') := run ts (vote pa (Some (img_id row)) (Some (img_id row))) w in
  r = VoteOk (fst (new_ratings pa r0 r0)) (snd (new_ratings pa r0 r0)) /\
  table w' = map (fun i => if (img_id i =? img_id row)%Z
                           then mkImage (img_id i) (img_name i) (img_image_url i)
                                        (ts (snd (new_ratings pa r0 r0)))
                                        (img_matches_played i + 2)
                           else i) (table w).
Proof.
  destruct w as [t p ro fs tr]; cbn [pending faults table].
  intros -> -> [Hnd Hpos] Hin. cbn zeta.
  assert (Hnz : (img_id row =? 0)%Z = false).
  { apply Z.eqb_neq. rewrite Forall_forall in Hpos. specialize (Hpos row Hin). lia. }
  unfold vote. cbn [falsy]. rewrite Hnz. cbn [orb].
  run_steps.
  rewrite (filter_key_unique t row Hnd Hin). cbn [run].
  destruct (new_ratings pa _ _) as [nw nl]. cbn [fst snd].
  match goal with
  | |- context [run ?ts' (vote_transaction ?a ?b ?c ?d) ?w2] =>
      pose proof (vote_transaction_outcome ts' a b c d w2 eq_refl) as Htx;
      destruct (run ts' (vote_transaction a b c d) w2) as [r w']
  end.
  destruct Htx as [_ [[-> [Ht _]] | [_ [_ [n [_ Hf]]]]]]; [|destruct Hf].
  split; [reflexivity|]. rewrite Ht. cbn [table].
  unfold apply_updates. cbn [fold_left apply_update]. rewrite map_map.
  apply map_ext. intros i.
  destruct (img_id i =? img_id row)%Z eqn:E; cbn [img_id]; rewrite ?E; cbn; [f_equal; lia | reflexivity].
Qed.

Lemma self_vote_counts_twice_witness :
  pending sample_world = None /\ faults sample_world = [] /\ wf_table (table sample_world)
  /\ In (mkImage 1 "drake" "https://ik.imagekit.io/elo-ranker-memes/meme-1" "1200" 0) (table sample_world)
  /\ (let row := mkImage 1 "drake" "https://ik.imagekit.io/elo-ranker-memes/meme-1" "1200" 0 in
      let r0 := JsNumber.parseFloat (img_rating row) in
      let '(r, w') := run (fun _ => EmptyString) (vote (fun _ _ => 0) (Some (img_id row)) (Some (img_id row))) sample_world in
      r = VoteOk (fst (new_ratings (fun _ _ => 0) r0 r0)) (snd (new_ratings (fun _ _ => 0) r0 r0)) /\
      table w' = map (fun i => if (img_id i =? img_id row)%Z
                               then mkImage (img_id i) (img_name i) (img_image_url i)
                                            (EmptyString)
                                            (img_matches_played i + 2)
                               else i) (table sample_world)).
Proof.
  assert (Hwf : wf_table (table sample_world)).
  { split.
    - cbn. repeat constructor; cbn; intuition discriminate.
    - cbn. repeat constructor; cbn; lia. }
  refine (conj eq_refl (conj eq_refl (conj Hwf (conj (or_introl eq_refl) _)))).
  apply (self_vote_counts_twice (fun _ _ => 0) (fun _ => EmptyString) sample_world
           (mkImage 1 "drake" "https://ik.imagekit.io/elo-ranker-memes/meme-1" "1200" 0));
    [reflexivity | reflexivity | exact Hwf | left; reflexivity].
Defined.

(* ------------------------------------------------------------------ *)
(** ** Matchup and concurrency *)

(** Claim C8: [GET /api/matchup] (its SELECT not failing) answers two
    rows of the table with distinct ids when the table has at least two
    rows, and 'Not enough images.' (no rows) when it has fewer. *)
Theorem matchup_two_distinct ts w :
  wf_table (table w) -> Permutation (random_order w (table w)) (table w) ->
  faulty w = false ->
  let '(r, _) := run ts matchup w in
  ((2 <= List.length (table w))%nat ->
     exists a b, r = MatchupRows [a; b] /\ img_id a <> img_id b /\
                 In a (table w) /\ In b (table w)) /\
  ((List.length (table w) < 2)%nat -> r = MatchupNotEnough).
Proof.
  intros [Hnd _] Hperm Hf.
  unfold matchup. cbn [run]. unfold exec. rewrite Hf.
  cbn [run].
  pose proof (Permutation_length Hperm) as Hlen.
  pose proof (Permutation_NoDup (Permutation_map img_id (Permutation_sym Hperm)) Hnd) as Hnd'.
  destruct (random_order w (table w)) as [|a [|b rest]] eqn:Ho; cbn in Hlen |- *.
  - split; [intros; lia | reflexivity].
  - split; [intros; lia | reflexivity].
  - split; [|intros; lia]. intros _. exists a, b. split; [reflexivity|].
    cbn in Hnd'. apply NoDup_cons_iff in Hnd' as [Hab _].
    split; [intros E; apply Hab; left; symmetry; exact E|].
    split; apply (Permutation_in _ Hperm); [left | right; left]; reflexivity.
Qed.

Lemma matchup_two_distinct_witness :
  wf_table (table sample_world)
  /\ Permutation (random_order sample_world (table sample_world)) (table sample_world)
  /\ faulty sample_world = false
  /\ (let '(r, _) := run (fun _ => EmptyString) matchup sample_world in
      ((2 <= List.length (table sample_world))%nat ->
         exists a b, r = MatchupRows [a; b] /\ img_id a <> img_id b /\
                     In a (table sample_world) /\ In b (table sample_world)) /\
      ((List.length (table sample_world) < 2)%nat -> r = MatchupNotEnough)).
Proof.
  assert (Hwf : wf_table (table sample_world)).
  { split.
    - cbn. repeat constructor; cbn; intuition discriminate.
    - cbn. repeat constructor; cbn; lia. }
  refine (conj Hwf (conj (Permutation_refl _) (conj eq_refl _))).
  apply (matchup_two_distinct (fun _ => EmptyString) sample_world Hwf (Permutation_refl _) eq_refl).
Defined.

(** The racy schedule on the sample table: both votes succeed, both read
    row 1 at rating "1200" before either commits, A commits row 1 before
    B's UPDATE of it, and the final rating of row 1 is B's value computed
    from "1200" -- the one B alone would write -- while its
    [matches_played] counts both votes. *)
Lemma racy_run ts pa :
  match interleave ts racy_schedule (vote pa (Some 1%Z) (Some 2%Z)) (vote pa (Some 1%Z) (Some 3%Z))
      sample_cworld with
  | Some (Ret ra, Ret rb, cw') =>
      ra = VoteOk 1216 1184 /\ rb = VoteOk 1216 1184
      /\ map (fun e => let '(who, q, _) := e in (who, q)) (c_events cw') =
         [(false, SelectById 1); (false, SelectById 2); (true, SelectById 1); (true, SelectById 3);
          (false, Connect); (false, Begin); (false, UpdateRating 1216 1);
          (false, UpdateRating 1184 2); (false, Commit);
          (true, Connect); (true, Begin); (true, UpdateRating 1216 1);
          (true, UpdateRating 1184 3); (true, Commit)]
      /\ firstn 4 (map (fun e => let '(_, _, r) := e in r) (c_events cw')) =
         [Rows [mkImage 1 "drake" "https://ik.imagekit.io/elo-ranker-memes/meme-1" "1200" 0];
          Rows [mkImage 2 "doge" "https://ik.imagekit.io/elo-ranker-memes/meme-2" "1200" 0];
          Rows [mkImage 1 "drake" "https://ik.imagekit.io/elo-ranker-memes/meme-1" "1200" 0];
          Rows [mkImage 3 "stonks" "https://ik.imagekit.io/elo-ranker-memes/meme-3" "1200" 0]]
      /\ c_table cw' =
         [mkImage 1 "drake" "https://ik.imagekit.io/elo-ranker-memes/meme-1" (ts 1216) 2;
          mkImage 2 "doge" "https://ik.imagekit.io/elo-ranker-memes/meme-2" (ts 1184) 1;
          mkImage 3 "stonks" "https://ik.imagekit.io/elo-ranker-memes/meme-3" (ts 1184) 1]
      /\ hd_error (table (snd (run ts (vote pa (Some 1%Z) (Some 3%Z)) sample_world)))
         = Some (mkImage 1 "drake" "https://ik.imagekit.io/elo-ranker-memes/meme-1" (ts 1216) 1)
  | _ => False
  end.
Proof. vm_compute. repeat split. Qed.

(** Claim C9 (counterexample): two concurrent votes sharing row 1 are not
    serialized on it: in the racy schedule each vote reads row 1 before
    the other commits. *)
Lemma concurrent_votes_not_serialized :
  ~ (forall (pa : float -> float -> float) (ts : float -> string) (sched : list bool)
            (ra rb : vote_response) (cw' : cworld),
        interleave ts sched (vote pa (Some 1%Z) (Some 2%Z)) (vote pa (Some 1%Z) (Some 3%Z))
          sample_cworld = Some (Ret ra, Ret rb, cw') ->
        serialized_on 1 (c_events cw') = true).
Proof.
  intros H.
  specialize (H (fun _ _ => 0) (fun _ => EmptyString) racy_schedule).
  destruct (interleave (fun _ => EmptyString) racy_schedule
              (vote (fun _ _ => 0) (Some 1%Z) (Some 2%Z)) (vote (fun _ _ => 0) (Some 1%Z) (Some 3%Z))
              sample_cworld) as [[[pa' pb'] cw']|] eqn:E; [|vm_compute in E; discriminate E].
  vm_compute in E. injection E as <- <- <-.
  specialize (H _ _ _ eq_refl). vm_compute in H. discriminate H.
Qed.

(* ------------------------------------------------------------------ *)
(** ** Unparsable ratings *)

Section NaN.

Local Open Scope float_scope.

Lemma is_nan_Prim2SF (x : float) : is_nan x = true <-> Prim2SF x = S754_nan.
Proof.
  unfold is_nan. rewrite FloatAxioms.eqb_spec.
  assert (Hc : forall m, Pos.compare_cont Eq m m = Eq) by exact Pos.compare_refl.
  destruct (Prim2SF x) as [s|s| |s m e]; [destruct s..| |destruct s]; cbn;
    rewrite ?Z.compare_refl, ?Hc; cbn; split; intros H; solve [reflexivity | discriminate H].
Qed.

Lemma sub_nan (x y : float) : is_nan x || is_nan y = true -> is_nan (x - y) = true.
Proof.
  intros H. apply is_nan_Prim2SF. rewrite sub_spec.
  apply orb_true_iff in H as [H|H]; apply is_nan_Prim2SF in H; rewrite H;
    [reflexivity | destruct (Prim2SF x); reflexivity].
Qed.

Lemma add_nan (x y : float) : is_nan x || is_nan y = true -> is_nan (x + y) = true.
Proof.
  intros H. apply is_nan_Prim2SF. rewrite add_spec.
  apply orb_true_iff in H as [H|H]; apply is_nan_Prim2SF in H; rewrite H;
    [reflexivity | destruct (Prim2SF x); reflexivity].
Qed.

Lemma mul_nan (x y : float) : is_nan x || is_nan y = true -> is_nan (x * y) = true.
Proof.
  intros H. apply is_nan_Prim2SF. rewrite mul_spec.
  apply orb_true_iff in H as [H|H]; apply is_nan_Prim2SF in H; rewrite H;
    [reflexivity | destruct (Prim2SF x); reflexivity].
Qed.

Lemma div_nan (x y : float) : is_nan x || is_nan y = true -> is_nan (x / y) = true.
Proof.
  intros H. apply is_nan_Prim2SF. rewrite div_spec.
  apply orb_true_iff in H as [H|H]; apply is_nan_Prim2SF in H; rewrite H;
    [reflexivity | destruct (Prim2SF x); reflexivity].
Qed.

Lemma expected_score_nan pa (a b : float) :
  is_nan a || is_nan b = true -> is_nan (calculateExpectedScore pa a b) = true.
Proof.
  intros H. unfold calculateExpectedScore, Math_pow, JsNumber.exponentiate.
  assert (He : is_nan ((b - a) / 400) = true).
  { apply div_nan. rewrite sub_nan; [reflexivity|]. now rewrite orb_comm. }
  rewrite He. apply div_nan. rewrite orb_true_r. reflexivity.
Qed.

(** No NaN check: a NaN in either rating makes both new ratings NaN. *)
Lemma new_ratings_nan pa (a b : float) :
  is_nan a || is_nan b = true ->
  is_nan (fst (new_ratings pa a b)) = true /\ is_nan (snd (new_ratings pa a b)) = true.
Proof.
  intros H. unfold new_ratings. cbn [fst snd]. split.
  - apply add_nan. rewrite mul_nan; [apply orb_true_r|].
    rewrite sub_nan; [apply orb_true_r|]. rewrite expected_score_nan; [reflexivity | exact H].
  - apply add_nan. rewrite mul_nan; [apply orb_true_r|].
    rewrite sub_nan; [apply orb_true_r|].
    rewrite expected_score_nan; [reflexivity | now rewrite orb_comm].
Qed.

End NaN.

(** Claim C3 (counterexample): an unparsable stored rating is not
    rejected: on the table whose row 1 holds ["NaN"], [vote 1 2] answers
    with the new ratings and issues an UPDATE writing a NaN rating. *)
Lemma nan_rating_not_rejected :
  ~ (forall (pa : float -> float -> float) (ts : float -> string) (w : world) (wid lid : Z)
            (rw rl : image),
        hd_error (filter (fun i => (img_id i =? wid)%Z) (table w)) = Some rw ->
        hd_error (filter (fun i => (img_id i =? lid)%Z) (table w)) = Some rl ->
        is_nan (JsNumber.parseFloat (img_rating rw)) || is_nan (JsNumber.parseFloat (img_rating rl)) = true ->
        let '(r, w') := run ts (vote pa (Some wid) (Some lid)) w in
        is_vote_ok r = false /\
        (forall x id, In (UpdateRating x id) (trace w') -> is_nan x = false)).
Proof.
  intros H.
  specialize (H (fun _ _ => 0) (fun _ => EmptyString) nan_world 1%Z 2%Z
                (mkImage 1 "drake" "https://ik.imagekit.io/elo-ranker-memes/meme-1" "NaN" 0)
                (mkImage 2 "doge" "https://ik.imagekit.io/elo-ranker-memes/meme-2" "1200" 0)
                eq_refl eq_refl eq_refl).
  vm_compute in H. destruct H as [H _]. discriminate H.
Qed.

(** Claim C3 (amended): the ratings read from the store are parsed with
    [parseFloat] before any arithmetic, but a result that is NaN is not
    rejected: when no query fails and both images exist, a vote where
    either parsed rating is NaN answers with two NaN ratings, issues both
    UPDATEs with them and commits them. *)
Theorem nan_rating_persisted pa ts w wid lid rw rl :
  pending w = None -> faults w = [] -> wid <> 0%Z -> lid <> 0%Z ->
  hd_error (filter (fun i => (img_id i =? wid)%Z) (table w)) = Some rw ->
  hd_error (filter (fun i => (img_id i =? lid)%Z) (table w)) = Some rl ->
  is_nan (JsNumber.parseFloat (img_rating rw)) || is_nan (JsNumber.parseFloat (img_rating rl)) = true ->
  let '(r, w') := run ts (vote pa (Some wid) (Some lid)) w in
  exists nw nl,
    r = VoteOk nw nl /\ is_nan nw = true /\ is_nan nl = true /\
    trace w' = trace w ++ [SelectById wid; SelectById lid; Connect; Begin;
                           UpdateRating nw wid; UpdateRating nl lid; Commit] /\
    table w' = apply_updates ts [(nw, wid); (nl, lid)] (table w).
Proof.
  destruct w as [t p ro fs tr]; cbn [pending faults table trace].
  intros -> -> Hw Hl Hrw Hrl Hnan.
  apply Z.eqb_neq in Hw. apply Z.eqb_neq in Hl.
  unfold vote. cbn [falsy]. rewrite Hw, Hl. cbn [orb].
  run_steps.
  destruct (filter _ t) as [|rw' ws]; [discriminate Hrw|]. injection Hrw as ->.
  destruct (filter _ t) as [|rl' ls]; [discriminate Hrl|]. injection Hrl as ->.
  pose proof (new_ratings_nan pa _ _ Hnan) as [Hnw Hnl].
  destruct (new_ratings pa _ _) as [nw nl]. cbn [fst snd] in Hnw, Hnl.
  unfold vote_transaction, rollback_and_rethrow.
  run_steps.
  exists nw, nl. repeat split; try assumption.
  rewrite <- !app_assoc. reflexivity.
Qed.

Lemma nan_rating_persisted_witness :
  (pending nan_world = None /\ faults nan_world = [] /\ 1%Z <> 0%Z /\ 2%Z <> 0%Z /\
   hd_error (filter (fun i => (img_id i =? 1)%Z) (table nan_world))
     = Some (mkImage 1 "drake" "https://ik.imagekit.io/elo-ranker-memes/meme-1" "NaN" 0) /\
   hd_error (filter (fun i => (img_id i =? 2)%Z) (table nan_world))
     = Some (mkImage 2 "doge" "https://ik.imagekit.io/elo-ranker-memes/meme-2" "1200" 0) /\
   is_nan (JsNumber.parseFloat "NaN") || is_nan (JsNumber.parseFloat "1200") = true) /\
  (let '(r, w') := run (fun _ => EmptyString) (vote (fun _ _ => 0) (Some 1%Z) (Some 2%Z)) nan_world in
   exists nw nl,
     r = VoteOk nw nl /\ is_nan nw = true /\ is_nan nl = true /\
     trace w' = trace nan_world ++ [SelectById 1; SelectById 2; Connect; Begin;
                                    UpdateRating nw 1; UpdateRating nl 2; Commit] /\
     table w' = apply_updates (fun _ => EmptyString) [(nw, 1%Z); (nl, 2%Z)] (table nan_world)).
Proof.
  split.
  - repeat split; try discriminate; reflexivity.
  - apply (nan_rating_persisted (fun _ _ => 0) (fun _ => EmptyString) nan_world 1%Z 2%Z
             (mkImage 1 "drake" "https://ik.imagekit.io/elo-ranker-memes/meme-1" "NaN" 0)
             (mkImage 2 "doge" "https://ik.imagekit.io/elo-ranker-memes/meme-2" "1200" 0));
      first [reflexivity | discriminate].
Defined.

(* ================================================================== *)
(** * Further properties of the handlers and the rating engine *)

(** ** [POST /api/vote] *)

(** The rows a vote writes: each row keeps its id, name and URL, and a row
    that is neither the winner nor the loser is left exactly as it was,
    whatever queries fail. *)
Theorem vote_frame pa ts wi li w :
  pending w = None ->
  let '(r, w') := run ts (vote pa wi li) w in
  Forall2 (fun i i' => img_id i' = img_id i /\ img_name i' = img_name i /\
                       img_image_url i' = img_image_url i /\
                       (participations wi li (img_id i) = 0%Z -> i' = i))
          (table w) (table w').
Proof.
  intros Hp. pose proof (vote_outcome pa ts wi li w Hp) as Ho.
  destruct (run ts (vote pa wi li) w) as [r w'].
  destruct Ho as [_ [[_ [_ ->]] | [_ [_ [[Ht _] | [wid [lid [nw [nl [-> [-> [_ Ht]]]]]]]]]]]].
  - induction (table w) as [|i t IH]; constructor; [repeat split; auto | exact IH].
  - rewrite Ht. clear Ht. induction (table w) as [|i t IH]; constructor; [repeat split; auto | exact IH].
  - rewrite Ht. unfold apply_updates, participations. cbn [fold_left apply_update].
    clear Ht. induction (table w) as [|i t IH]; cbn [map]; constructor; [|exact IH].
    rewrite (Z.eqb_sym wid (img_id i)), (Z.eqb_sym lid (img_id i)).
    destruct (img_id i =? wid)%Z eqn:Ew; cbn [img_id img_name img_image_url];
      destruct (img_id i =? lid)%Z eqn:El; cbn [img_id img_name img_image_url];
      repeat split; try reflexivity; intros H; first [ reflexivity | cbn in H; lia ].
Qed.

Lemma vote_frame_witness :
  pending sample_world = None /\
  (let '(r, w') := run (fun _ => EmptyString) (vote (fun _ _ => 0) (Some 1%Z) (Some 2%Z)) sample_world in
   Forall2 (fun i i' => img_id i' = img_id i /\ img_name i' = img_name i /\
                        img_image_url i' = img_image_url i /\
                        (participations (Some 1%Z) (Some 2%Z) (img_id i) = 0%Z -> i' = i))
           (table sample_world) (table w')).
Proof.
  split; [reflexivity|].
  apply (vote_frame (fun _ _ => 0) (fun _ => EmptyString) (Some 1%Z) (Some 2%Z) sample_world).
  reflexivity.
Defined.

(** The handler never leaves its session inside an open transaction: from
    a session with no open transaction, every vote, whatever queries
    fail, ends with none. *)
Theorem vote_closes_transaction pa ts wi li w :
  pending w = None -> pending (snd (run ts (vote pa wi li) w)) = None.
Proof.
  intros Hp. pose proof (vote_outcome pa ts wi li w Hp) as Ho.
  destruct (run ts (vote pa wi li) w) as [r w']. exact (proj1 Ho).
Qed.

Lemma vote_closes_transaction_witness :
  pending (mkWorld sample_images None (fun t => t) [3%nat] []) = None /\
  pending (snd (run (fun _ => EmptyString) (vote (fun _ _ => 0) (Some 1%Z) (Some 2%Z))
                  (mkWorld sample_images None (fun t => t) [3%nat] []))) = None.
Proof.
  split; [reflexivity|].
  apply (vote_closes_transaction (fun _ _ => 0) (fun _ => EmptyString) (Some 1%Z) (Some 2%Z)
           (mkWorld sample_images None (fun t => t) [3%nat] [])).
  reflexivity.
Defined.

(** A vote naming an image that does not exist writes nothing: it issues
    at most its two SELECTs, opens no transaction, leaves the table as it
    was and answers 404 (500 if a SELECT fails); with no failing query it
    issues both SELECTs and answers 404. *)
Theorem vote_missing_image_reads_only pa ts w wid lid :
  pending w = None -> wid <> 0%Z -> lid <> 0%Z ->
  filter (fun i => (img_id i =? wid)%Z) (table w) = [] \/
  filter (fun i => (img_id i =? lid)%Z) (table w) = [] ->
  let '(r, w') := run ts (vote pa (Some wid) (Some lid)) w in
  table w' = table w /\ pending w' = None /\
  (r = VoteNotFound \/ r = VoteFailed) /\
  (exists n, trace w' = trace w ++ firstn n [SelectById wid; SelectById lid]) /\
  (faults w = [] -> r = VoteNotFound /\ trace w' = trace w ++ [SelectById wid; SelectById lid]).
Proof.
  destruct w as [t p ro fs tr]; cbn [pending faults table trace].
  intros -> Hw Hl Hmiss.
  apply Z.eqb_neq in Hw. apply Z.eqb_neq in Hl.
  unfold vote. cbn [falsy]. rewrite Hw, Hl. cbn [orb].
  run_steps.
  all: try (split; [reflexivity|]; split; [reflexivity|]; split; [right; reflexivity|];
            split; [exists 1%nat; reflexivity|];
            intros ->; cbn in *; discriminate).
  all: try (split; [reflexivity|]; split; [reflexivity|]; split; [right; reflexivity|];
            split; [exists 2%nat; rewrite <- app_assoc; reflexivity|];
            intros ->; cbn in *; discriminate).
  all: destruct Hmiss as [-> | ->];
       [| destruct (filter _ t) as [|? ?]]; cbn [run];
       (split; [reflexivity|]; split; [reflexivity|]; split; [left; reflexivity|];
        split; [exists 2%nat; rewrite <- app_assoc; reflexivity|];
        intros _; split; [reflexivity | rewrite <- app_assoc; reflexivity]).
Qed.

Lemma vote_missing_image_reads_only_witness :
  (pending sample_world = None /\ 1%Z <> 0%Z /\ 7%Z <> 0%Z /\
   (filter (fun i => (img_id i =? 1)%Z) (table sample_world) = [] \/
    filter (fun i => (img_id i =? 7)%Z) (table sample_world) = [])) /\
  (let '(r, w') := run (fun _ => EmptyString) (vote (fun _ _ => 0) (Some 1%Z) (Some 7%Z)) sample_world in
   table w' = table sample_world /\ pending w' = None /\
   (r = VoteNotFound \/ r = VoteFailed) /\
   (exists n, trace w' = trace sample_world ++ firstn n [SelectById 1; SelectById 7]) /\
   (faults sample_world = [] -> r = VoteNotFound /\
      trace w' = trace sample_world ++ [SelectById 1; SelectById 7])).
Proof.
  split.
  - split; [reflexivity|]. split; [discriminate|]. split; [discriminate|]. right; reflexivity.
  - apply (vote_missing_image_reads_only (fun _ _ => 0) (fun _ => EmptyString) sample_world 1%Z 7%Z);
      [reflexivity | discriminate | discriminate | right; reflexivity].
Defined.

(** ** The rating engine in binary64 *)

Lemma is_finite_Prim2SF (x : float) :
  is_finite x = true ->
  (exists s, Prim2SF x = S754_zero s) \/ (exists s m e, Prim2SF x = S754_finite s m e).
Proof.
  intros H. unfold is_finite, is_infinity in H.
  apply negb_true_iff, orb_false_iff in H as [Hn Hi].
  rewrite FloatAxioms.eqb_spec, FloatAxioms.abs_spec in Hi.
  destruct (Prim2SF x) as [s|s| |s m e] eqn:E.
  - left. exists s. reflexivity.
  - exfalso. assert (Hinf : Prim2SF infinity = S754_infinity false) by reflexivity.
    rewrite Hinf in Hi. destruct s; discriminate Hi.
  - exfalso. apply is_nan_Prim2SF in E. congruence.
  - right. exists s, m, e. reflexivity.
Qed.

Lemma sub_self_finite (x : float) : is_finite x = true -> (x - x)%float = 0%float.
Proof.
  intros H. apply Prim2SF_inj. rewrite FloatAxioms.sub_spec.
  change (Prim2SF 0%float) with (S754_zero false).
  destruct (is_finite_Prim2SF x H) as [[s E] | [s [m [e E]]]]; rewrite E.
  - destruct s; reflexivity.
  - unfold SF64sub, SFsub. rewrite Z.sub_diag. reflexivity.
Qed.








(** Two images with the same finite rating [r]: whatever the host's
    [Math.pow], both expected scores are exactly 0.5 and the new ratings
    are [r + 16] and [r + (-16)] rounded, as for 1200 in the spec's
    scenario. *)
Theorem equal_ratings_update pa (r : float) :
  is_finite r = true ->
  expected_scores pa r r = (0.5, 0.5)%float /\
  new_ratings pa r r = ((r + 16)%float, (r + -16)%float).
Proof.
  intros H.
  unfold expected_scores, new_ratings, calculateExpectedScore, Math_pow, JsNumber.exponentiate.
  rewrite (sub_self_finite r H). split; reflexivity.
Qed.

Lemma equal_ratings_update_witness :
  is_finite 1500.5%float = true /\
  expected_scores (fun _ _ => 0%float) 1500.5 1500.5 = (0.5, 0.5)%float /\
  new_ratings (fun _ _ => 0%float) 1500.5 1500.5 = ((1500.5 + 16)%float, (1500.5 + -16)%float).
Proof.
  split; [reflexivity|]. apply (equal_ratings_update (fun _ _ => 0%float) 1500.5%float).
  reflexivity.
Defined.

(** ** [POST /api/upload] *)

(** [name.trim() === ''] exactly when every character of [name] is white
    space. *)
Lemma trim_empty_iff (s : string) :
  JsString.trim s = EmptyString <->
  Forall (fun c => JsNumber.is_white_space c = true) (list_ascii_of_string s).
Proof.
  unfold JsString.trim. induction s as [|c s IH]; cbn [JsNumber.trim_start list_ascii_of_string].
  - split; [constructor | reflexivity].
  - destruct (JsNumber.is_white_space c) eqn:E.
    + rewrite IH. split; [intros H; constructor; assumption | intros H; inversion H; assumption].
    + cbn [JsString.trim_end]. rewrite E. cbn [andb]. split; [discriminate|].
      intros H. inversion H. congruence.
Qed.

(** A request without a file, or whose name is absent or only white
    space, is answered 400 before anything else: nothing is uploaded to
    ImageKit and nothing is inserted. *)
Theorem upload_rejects_early ts file name now s :
  file = None \/ name = None \/
  (exists nm, name = Some nm /\
     Forall (fun c => JsNumber.is_white_space c = true) (list_ascii_of_string nm)) ->
  upload ts file name now s = (UploadNoFile, s) \/ upload ts file name now s = (UploadNoName, s).
Proof.
  intros H. unfold upload.
  destruct file as [buffer|]; [|left; reflexivity]. right.
  destruct H as [H | [-> | [nm [-> Hws]]]]; [discriminate H | reflexivity |].
  cbn [name_missing]. apply trim_empty_iff in Hws. rewrite Hws, orb_true_r. reflexivity.
Qed.

Lemma upload_rejects_early_witness :
  ((None : option (list Byte.byte)) = None \/ Some "  "%string = None \/
   (exists nm, Some "  "%string = Some nm /\
      Forall (fun c => JsNumber.is_white_space c = true) (list_ascii_of_string nm))) /\
  (upload (fun _ => EmptyString) None (Some "  "%string) 1700000000000 sample_ustore
     = (UploadNoFile, sample_ustore) \/
   upload (fun _ => EmptyString) None (Some "  "%string) 1700000000000 sample_ustore
     = (UploadNoName, sample_ustore)).
Proof.
  split; [left; reflexivity|].
  apply (upload_rejects_early (fun _ => EmptyString) None (Some "  "%string) 1700000000000 sample_ustore).
  left; reflexivity.
Defined.

(** With a file and a name holding some non-white-space ASCII character,
    when ImageKit stores the file and the INSERT succeeds: the file is
    stored in folder [elo-ranker-memes] under the name [meme-<now>],
    exactly one row is appended, with the next id of the sequence, the
    name as sent (not trimmed), the URL ImageKit returned, rating 1200
    and 0 matches played, and the answer is 201 with that URL. *)
Theorem upload_success ts buffer nm now s url :
  (exists c, In c (list_ascii_of_string nm) /\ JsNumber.is_white_space c = false
             /\ (nat_of_ascii c < 128)%nat) ->
  u_upload_result s = Some url -> u_insert_fails s = false ->
  upload ts (Some buffer) (Some nm) now s =
  (UploadCreated url,
   mkUStore (u_files s ++ [("elo-ranker-memes"%string,
                            ("meme-" ++ JsString.integer_to_string now)%string, buffer, url)])
            (u_upload_result s)
            (u_table s ++ [mkImage (u_next_id s) nm url (ts 1200%float) 0])
            (u_next_id s + 1) (u_insert_fails s)).
Proof.
  intros [c [Hin [Hc _]]] Hu Hi. unfold upload. cbn [name_missing].
  assert (Ht : String.eqb (JsString.trim nm) EmptyString = false).
  { apply not_true_iff_false. intros Ht. apply String.eqb_eq, trim_empty_iff in Ht.
    rewrite Forall_forall in Ht. rewrite (Ht c Hin) in Hc. discriminate Hc. }
  assert (Hn : String.eqb nm EmptyString = false).
  { apply not_true_iff_false. intros He. apply String.eqb_eq in He. subst nm.
    destruct Hin. }
  rewrite Hn, Ht, Hu, Hi. reflexivity.
Qed.

Lemma upload_success_witness :
  ((exists c, In c (list_ascii_of_string " Doge ") /\ JsNumber.is_white_space c = false
              /\ (nat_of_ascii c < 128)%nat) /\
   u_upload_result sample_ustore = Some "https://ik.imagekit.io/elo-ranker-memes/meme-1700000000000"%string /\
   u_insert_fails sample_ustore = false) /\
  upload (fun _ => "1200"%string) (Some [Byte.x00]) (Some " Doge "%string) 1700000000000 sample_ustore =
  (UploadCreated "https://ik.imagekit.io/elo-ranker-memes/meme-1700000000000",
   mkUStore (u_files sample_ustore ++ [("elo-ranker-memes"%string,
                 ("meme-" ++ JsString.integer_to_string 1700000000000)%string, [Byte.x00],
                 "https://ik.imagekit.io/elo-ranker-memes/meme-1700000000000"%string)])
            (u_upload_result sample_ustore)
            (u_table sample_ustore ++ [mkImage (u_next_id sample_ustore) " Doge "
                 "https://ik.imagekit.io/elo-ranker-memes/meme-1700000000000" "1200" 0])
            (u_next_id sample_ustore + 1) (u_insert_fails sample_ustore)).
Proof.
  assert (Hc : exists c, In c (list_ascii_of_string " Doge ") /\ JsNumber.is_white_space c = false
                         /\ (nat_of_ascii c < 128)%nat).
  { exists "D"%char. split; [cbn; auto|]. split; [reflexivity | cbn; lia]. }
  split; [split; [exact Hc | split; reflexivity]|].
  apply (upload_success (fun _ => "1200"%string) [Byte.x00] " Doge " 1700000000000 sample_ustore
           "https://ik.imagekit.io/elo-ranker-memes/meme-1700000000000");
    [exact Hc | reflexivity | reflexivity].
Defined.

(** The table invariant kept by uploads: when ids are unique and positive
    and the sequence is past every id, the same holds after any upload. *)
Definition ids_below (t : list image) (next : Z) : Prop :=
  Forall (fun i => (img_id i < next)%Z) t.

Theorem upload_keeps_ids ts file name now s :
  wf_table (u_table s) -> ids_below (u_table s) (u_next_id s) -> (0 < u_next_id s)%Z ->
  let s' := snd (upload ts file name now s) in
  wf_table (u_table s') /\ ids_below (u_table s') (u_next_id s') /\ (0 < u_next_id s')%Z.
Proof.
  intros [Hnd Hpos] Hb Hn. cbv zeta. unfold upload.
  destruct file as [buffer|]; [|cbn [snd]; repeat split; assumption].
  destruct (name_missing name); [cbn [snd]; repeat split; assumption|].
  destruct (u_upload_result s) as [url|]; [|cbn [snd]; repeat split; assumption].
  destruct (u_insert_fails s); cbn [snd u_table u_next_id]; [repeat split; assumption|].
  unfold ids_below in *. repeat split.
  - rewrite map_app. cbn [map img_id]. apply NoDup_app; [exact Hnd | constructor; [intros []|constructor] |].
    intros x Hx [<- | []]. apply in_map_iff in Hx as [i [Hi Hin]].
    rewrite Forall_forall in Hb. specialize (Hb i Hin). lia.
  - apply Forall_app. split; [exact Hpos | constructor; [cbn; lia | constructor]].
  - apply Forall_app. split; [|constructor; [cbn; lia | constructor]].
    eapply Forall_impl; [|exact Hb]. intros i Hi. cbv beta in *. lia.
  - lia.
Qed.

Lemma upload_keeps_ids_witness :
  (wf_table (u_table sample_ustore) /\ ids_below (u_table sample_ustore) (u_next_id sample_ustore)
   /\ (0 < u_next_id sample_ustore)%Z) /\
  (let s' := snd (upload (fun _ => EmptyString) (Some [Byte.x00]) (Some "doge"%string) 0 sample_ustore) in
   wf_table (u_table s') /\ ids_below (u_table s') (u_next_id s') /\ (0 < u_next_id s')%Z).
Proof.
  assert (H : wf_table (u_table sample_ustore) /\ ids_below (u_table sample_ustore) (u_next_id sample_ustore)
              /\ (0 < u_next_id sample_ustore)%Z).
  { split; [split|split].
    - cbn. repeat constructor; cbn; intuition discriminate.
    - cbn. repeat constructor; cbn; lia.
    - cbn. repeat constructor; cbn; lia.
    - cbn. lia. }
  split; [exact H|].
  destruct H as [H1 [H2 H3]].
  exact (upload_keeps_ids (fun _ => EmptyString) (Some [Byte.x00]) (Some "doge"%string) 0 sample_ustore H1 H2 H3).
Defined.

(** ** [GET /api/matchup] *)

(** The matchup only reads: it issues its one SELECT and changes nothing
    else, and a 200 answer always carries exactly two rows of the table,
    whatever order [ORDER BY RANDOM()] produces (given it only reorders
    the rows) and whether the query fails. *)
Theorem matchup_reads_two_rows ts w :
  (forall t, incl (random_order w t) t) ->
  let '(r, w') := run ts matchup w in
  table w' = table w /\ trace w' = trace w ++ [SelectRandom2] /\
  (forall rows, r = MatchupRows rows ->
     List.length rows = 2%nat /\ incl rows (table w)).
Proof.
  intros Hperm. destruct w as [t p ro fs tr]. cbn [random_order table trace] in *.
  unfold matchup. cbn [run]. unfold exec, faulty, log_query, set_pending.
  cbn [trace faults table pending random_order].
  destruct (existsb _ fs).
  - destruct p; cbn [run table trace]; (split; [reflexivity|]; split; [reflexivity|]; discriminate).
  - destruct (List.length (firstn 2 (ro t)) <? 2)%nat eqn:E; cbn [run table trace];
      (split; [reflexivity|]; split; [reflexivity|]); [discriminate|].
    intros rows Hr. injection Hr as <-. apply Nat.ltb_ge in E.
    pose proof (Hperm t) as Hi. destruct (ro t) as [|a [|b l]]; cbn in E; [lia | lia |].
    split; [reflexivity|]. intros x Hx. apply Hi.
    destruct Hx as [<- | [<- | []]]; [left | right; left]; reflexivity.
Qed.

Lemma matchup_reads_two_rows_witness :
  (forall t, incl (random_order sample_world t) t) /\
  (let '(r, w') := run (fun _ => EmptyString) matchup sample_world in
   table w' = table sample_world /\ trace w' = trace sample_world ++ [SelectRandom2] /\
   (forall rows, r = MatchupRows rows ->
      List.length rows = 2%nat /\ incl rows (table sample_world))).
Proof.
  assert (H : forall t, incl (random_order sample_world t) t) by (intros t x Hx; exact Hx).
  split; [exact H|]. exact (matchup_reads_two_rows (fun _ => EmptyString) sample_world H).
Defined.
